(** * fix_response_hash.py: a shallow embedding and its properties

    The script walks a fixed list of three Swift source files; every file
    that exists is read as text, every occurrence of [response.hash] is
    replaced by [response.id] with [str.replace], the text is written back
    and a confirmation line is printed.

    The development has two layers:
    - the module [Text]: Python's [str.replace] and [str.count] on strings;
    - the script itself: the file system, standard output, the unhandled
      exceptions of [open], and the loop in a state-and-exception monad. *)

From Stdlib Require Import ZArith Lia Ascii.
From stdpp Require Import base tactics option list strings gmap fin_maps.

(** ** Python strings

    A Python [str] is modelled by [string]; a character is only ever
    compared for equality, so the 8-bit [ascii] stands for a code point. *)
Module Text.

(** [s[n:]] *)
Fixpoint drop (n : nat) (s : string) : string :=
  match n, s with
  | O, _ => s
  | S _, "" => ""
  | S k, String _ rest => drop k rest
  end.

(** [s.startswith(p)] *)
Definition startswith (s p : string) : bool := String.prefix p s.

(** The scan of [str.replace] for a non-empty [old]: [skip] counts the
    characters of a match that are still to be passed over. The text is
    walked left to right; at a position where [old] starts, [new] is emitted
    and the scan resumes behind the match, so matches never overlap. *)
Fixpoint replace_from (old new : string) (skip : nat) (s : string) : string :=
  match s with
  | "" => ""
  | String c rest =>
      match skip with
      | S k => replace_from old new k rest
      | O =>
          if startswith s old
          then new +:+ replace_from old new (String.length old - 1) rest
          else String c (replace_from old new 0 rest)
      end
  end.

(** For an empty [old] Python puts [new] in front of every character and
    at the end. *)
Fixpoint surround (new s : string) : string :=
  match s with
  | "" => new
  | String c rest => new +:+ String c (surround new rest)
  end.

(** [s.replace(old, new)] *)
Definition replace (s old new : string) : string :=
  match old with
  | "" => surround new s
  | String _ _ => replace_from old new 0 s
  end.

(** The scan of [str.count] for a non-empty [sub], with the same cursor. *)
Fixpoint count_from (sub : string) (skip : nat) (s : string) : nat :=
  match s with
  | "" => 0
  | String _ rest =>
      match skip with
      | S k => count_from sub k rest
      | O =>
          if startswith s sub
          then S (count_from sub (String.length sub - 1) rest)
          else count_from sub 0 rest
      end
  end.

(** [s.count(sub)]: the number of non-overlapping occurrences. *)
Definition count (s sub : string) : nat :=
  match sub with
  | "" => S (String.length s)
  | String _ _ => count_from sub 0 s
  end.

(** [c in s] for a character [c] *)
Fixpoint has_char (s : string) (c : Ascii.ascii) : bool :=
  match s with
  | "" => false
  | String d rest => bool_decide (c = d) || has_char rest c
  end.

(** [sub] occurs in [s] at offset [k]. *)
Definition occurs_at (sub : string) (k : nat) (s : string) : Prop :=
  ∃ u v, s = u +:+ sub +:+ v ∧ String.length u = k.

(** The replacement as the specification words it: the occurrences are
    found scanning left to right, each one is replaced, the scan resumes
    behind it, and the text in between is kept. *)
Inductive replaced (old new : string) : string → string → Prop :=
  | replaced_none s :
      (∀ k, ¬ occurs_at old k s) →
      replaced old new s s
  | replaced_first u v t :
      (∀ k, k < String.length u → ¬ occurs_at old k (u +:+ old +:+ v)) →
      replaced old new v t →
      replaced old new (u +:+ old +:+ v) (u +:+ new +:+ t).

End Text.

(** ** The world of the script *)

(** A directory entry, as far as the script can tell entries apart. The
    [text] of a file is what [open(path, 'r').read()] returns for it. *)
Inductive node : Type :=
  | File (text : string) (readable writable : bool)
  | Directory.

(** [open] modes used by the script. *)
Inductive mode : Type := ModeR | ModeW.

(** What the script asks of the file system, in the order it asks. *)
Inductive access : Type :=
  | Exists (path : string)
  | Open (path : string) (m : mode)
  | Read (path : string)
  | Write (path : string) (text : string).

(** The exceptions [open] raises; the script catches none of them. What
    can go wrong once a file is open (a decoding error of the read, a full
    disk at the write) is outside this model. *)
Inductive exn : Type :=
  | FileNotFoundError (path : string)
  | PermissionError (path : string)
  | IsADirectoryError (path : string).

Record world : Type := World {
  files : gmap string node;
  stdout : list string;
  accesses : list access
}.

Definition log (a : access) (w : world) : world :=
  World (files w) (stdout w) (accesses w ++ [a]).

Definition store (path : string) (n : node) (w : world) : world :=
  World (<[path := n]> (files w)) (stdout w) (accesses w).

(** ** State and exceptions *)

Inductive result (A : Type) : Type :=
  | Return (a : A)
  | Raise (e : exn).
Arguments Return {A} a.
Arguments Raise {A} e.

Definition io (A : Type) : Type := world → result A * world.

Definition ret {A} (a : A) : io A := λ w, (Return a, w).

(** An exception ends the computation; the world reached so far stays. *)
Definition bind {A B} (m : io A) (k : A → io B) : io B :=
  λ w, match m w with
       | (Return a, w') => k a w'
       | (Raise e, w') => (Raise e, w')
       end.

Notation "x <- m ;; k" := (bind m (λ x, k))
  (at level 100, m at next level, right associativity).
Notation "m ;; k" := (bind m (λ _, k))
  (at level 100, right associativity).

(** ** The primitives the script calls *)

(** [os.path.exists(path)] *)
Definition path_exists (path : string) : io bool :=
  λ w, (Return (bool_decide (is_Some (files w !! path))), log (Exists path) w).

(** [with open(path, 'r') as f: return f.read()] *)
Definition read_text (path : string) : io string :=
  λ w, let w := log (Open path ModeR) w in
       match files w !! path with
       | Some (File text true _) => (Return text, log (Read path) w)
       | Some (File _ false _) => (Raise (PermissionError path), w)
       | Some Directory => (Raise (IsADirectoryError path), w)
       | None => (Raise (FileNotFoundError path), w)
       end.

(** [with open(path, 'w') as f: f.write(text)]; mode ['w'] creates a
    missing file and replaces the contents of an existing one. *)
Definition write_text (path text : string) : io unit :=
  λ w, let w := log (Open path ModeW) w in
       match files w !! path with
       | Some (File _ r true) =>
           (Return (), log (Write path text) (store path (File text r true) w))
       | Some (File _ _ false) => (Raise (PermissionError path), w)
       | Some Directory => (Raise (IsADirectoryError path), w)
       | None =>
           (Return (), log (Write path text) (store path (File text true true) w))
       end.

(** [print(line)] *)
Definition print (line : string) : io unit :=
  λ w, (Return (), World (files w) (stdout w ++ [line]) (accesses w)).

(** [for x in xs: body(x)] *)
Fixpoint for_each {A} (xs : list A) (body : A → io unit) : io unit :=
  match xs with
  | [] => ret ()
  | x :: rest => body x ;; for_each rest body
  end.

(** ** The script *)

Definition services : list string := [
  "Blendv3/Services/PoolService.swift";
  "Blendv3/Services/BackstopContractService.swift";
  "Blendv3/Services/BlendOracleService.swift"
].

(** Line 16: [content.replace('response.hash', 'response.id')]. *)
Definition old_text : string := "response.hash".
Definition new_text : string := "response.id".
Definition patch (content : string) : string :=
  Text.replace content old_text new_text.

(** The body of the loop, lines 11 to 21. *)
Definition patch_service (service_file : string) : io unit :=
  found <- path_exists service_file ;;
  if found : bool then
    content <- read_text service_file ;;
    let content := patch content in
    write_text service_file content ;;
    print ("Updated " +:+ service_file)
  else ret ().

(** The whole script. *)
Definition main : io unit :=
  for_each services patch_service ;;
  print "All services updated!".

(** A run starts with nothing printed and nothing asked. *)
Definition start (fs : gmap string node) : world := World fs [] [].
Definition run (fs : gmap string node) : result unit * world := main (start fs).

(** ** Vocabulary of the statements *)

(** The text of a regular file. *)
Definition content (fs : gmap string node) (path : string) : option string :=
  match fs !! path with
  | Some (File text _ _) => Some text
  | _ => None
  end.

(** What line 16 does to an entry that holds text. *)
Definition patch_node (n : node) : node :=
  match n with
  | File text r w => File (patch text) r w
  | Directory => Directory
  end.

(** [open] succeeds on [path] in both modes, or [path] is absent. *)
Definition usable (fs : gmap string node) (path : string) : bool :=
  match fs !! path with
  | Some (File _ r w) => r && w
  | Some Directory => false
  | None => true
  end.

(** The exception the loop body raises on an entry it cannot patch. *)
Definition failure (path : string) (n : node) : option exn :=
  match n with
  | File _ false _ => Some (PermissionError path)
  | File _ true false => Some (PermissionError path)
  | File _ true true => None
  | Directory => Some (IsADirectoryError path)
  end.

Definition path_of (a : access) : string :=
  match a with
  | Exists p | Open p _ | Read p | Write p _ => p
  end.

Definition updated (path : string) : string := "Updated " +:+ path.

(** The listed paths that exist, in the order of the list. *)
Definition present (fs : gmap string node) (paths : list string) : list string :=
  filter (λ p, is_Some (fs !! p)) paths.

(** Every listed path is absent or opens in both modes: no [open] of the
    run raises. *)
Definition ready (fs : gmap string node) : bool := forallb (usable fs) services.

(** The scenario of the specification: three files, the second one
    without an occurrence. *)
Definition three_files : gmap string node :=
  {[ "Blendv3/Services/PoolService.swift" := File "a=response.hash;" true true;
     "Blendv3/Services/BackstopContractService.swift" := File "b" true true;
     "Blendv3/Services/BlendOracleService.swift" :=
       File "response.hash response.hash" true true ]}.

(** The second file is absent; a file outside the list is around. *)
Definition second_absent : gmap string node :=
  {[ "Blendv3/Services/PoolService.swift" := File "a=response.hash;" true true;
     "Blendv3/Services/BlendOracleService.swift" :=
       File "x.response.hash.y" true true;
     "README.md" := File "response.hash" true true ]}.

(** The second file cannot be read. *)
Definition second_locked : gmap string node :=
  {[ "Blendv3/Services/PoolService.swift" := File "a=response.hash;" true true;
     "Blendv3/Services/BackstopContractService.swift" :=
       File "response.hash" false true;
     "Blendv3/Services/BlendOracleService.swift" :=
       File "response.hash response.hash" true true ]}.

(** The same three files with other texts. *)
Definition other_texts : gmap string node :=
  {[ "Blendv3/Services/PoolService.swift" := File "" true true;
     "Blendv3/Services/BackstopContractService.swift" :=
       File "response.hashresponse.hash" true true;
     "Blendv3/Services/BlendOracleService.swift" := File "let id = 1" true true ]}.

(** What one turn of the loop asks of the file system, by the entry it
    finds: the existence test; if the path exists, [open] for reading, then
    the read, [open] for writing and the write of the patched text, up to
    the first of them that raises. *)
Definition asked (path : string) (entry : option node) : list access :=
  match entry with
  | None => [Exists path]
  | Some (File text true true) =>
      [Exists path; Open path ModeR; Read path; Open path ModeW;
       Write path (patch text)]
  | Some (File _ true false) =>
      [Exists path; Open path ModeR; Read path; Open path ModeW]
  | Some (File _ false _) | Some Directory => [Exists path; Open path ModeR]
  end.

(** The accesses of the loop over [paths] from the file system [fs]: the
    turns follow one another until an entry cannot be patched. *)
Fixpoint trace (fs : gmap string node) (paths : list string) : list access :=
  match paths with
  | [] => []
  | p :: rest => asked p (fs !! p) ++ (if usable fs p then trace fs rest else [])
  end.

(** An entry with its text forgotten: what kind of entry it is and who
    may open it. *)
Definition erase (n : node) : node :=
  match n with
  | File _ r w => File "" r w
  | Directory => Directory
  end.

Example run_ex :
  run {[ "Blendv3/Services/PoolService.swift" := File "a=response.hash;" true true ]}
  = (Return (),
     World {[ "Blendv3/Services/PoolService.swift" := File "a=response.id;" true true ]}
       ["Updated Blendv3/Services/PoolService.swift"; "All services updated!"]
       [Exists "Blendv3/Services/PoolService.swift";
        Open "Blendv3/Services/PoolService.swift" ModeR;
        Read "Blendv3/Services/PoolService.swift";
        Open "Blendv3/Services/PoolService.swift" ModeW;
        Write "Blendv3/Services/PoolService.swift" "a=response.id;";
        Exists "Blendv3/Services/BackstopContractService.swift";
        Exists "Blendv3/Services/BlendOracleService.swift"]).
Proof. vm_compute. reflexivity. Qed.

Example patch_ex1 : patch "x.response.hash.y" = "x.response.id.y".
Proof. reflexivity. Qed.
Example patch_ex2 : patch "response.hash response.hash" = "response.id response.id".
Proof. reflexivity. Qed.
Example replace_ex3 : Text.replace "aaaaa" "aa" "b" = "bba".
Proof. reflexivity. Qed.
Example replace_ex4 : Text.replace "abc" "" "-" = "-a-b-c-".
Proof. reflexivity. Qed.
Example count_ex : Text.count "aaaaa" "aa" = 2.
Proof. reflexivity. Qed.

(** ** Facts about strings *)
Section string_facts.
Implicit Types s t u v p : string.

Lemma string_app_nil_l s : "" +:+ s = s.
Proof. reflexivity. Qed.

Lemma string_app_cons c s t : String c s +:+ t = String c (s +:+ t).
Proof. reflexivity. Qed.

Lemma string_app_nil_r s : s +:+ "" = s.
Proof. induction s; rewrite ?string_app_cons; [done | by f_equal]. Qed.

Lemma string_app_assoc s t u : (s +:+ t) +:+ u = s +:+ t +:+ u.
Proof. induction s; rewrite ?string_app_cons; [done | by f_equal]. Qed.

Lemma string_length_app s t :
  String.length (s +:+ t) = String.length s + String.length t.
Proof. induction s; rewrite ?string_app_cons; simpl; [done | by f_equal]. Qed.

Lemma string_drop_app s t : Text.drop (String.length s) (s +:+ t) = t.
Proof. induction s; rewrite ?string_app_cons; simpl; [by destruct t | done]. Qed.

Lemma string_drop_0 s : Text.drop 0 s = s.
Proof. by destruct s. Qed.

Lemma string_drop_empty n : Text.drop n "" = "".
Proof. by destruct n. Qed.

Lemma startswith_nil s : Text.startswith s "" = true.
Proof. by destruct s. Qed.

Lemma startswith_cons c s d p :
  Text.startswith (String c s) (String d p)
  = bool_decide (d = c) && Text.startswith s p.
Proof.
  unfold Text.startswith. simpl.
  destruct (Ascii.ascii_dec d c); by case_bool_decide.
Qed.

Lemma startswith_empty p : p ≠ "" → Text.startswith "" p = false.
Proof. by destruct p. Qed.

Lemma startswith_spec s p :
  Text.startswith s p = true ↔ ∃ v, s = p +:+ v.
Proof.
  revert s. induction p as [|d p IH]; intros s.
  - rewrite startswith_nil. split; [eauto | done].
  - destruct s as [|c s].
    + split; [done | by intros [? ?]].
    + rewrite startswith_cons, andb_true_iff, bool_decide_eq_true, IH.
      split.
      * intros [-> [v ->]]. by exists v.
      * intros [v Hv]. rewrite string_app_cons in Hv. injection Hv as -> ->. eauto.
Qed.

Lemma startswith_app p v : Text.startswith (p +:+ v) p = true.
Proof. apply startswith_spec. eauto. Qed.

Lemma startswith_length s p :
  Text.startswith s p = true → String.length p ≤ String.length s.
Proof.
  intros [v ->]%startswith_spec. rewrite string_length_app. lia.
Qed.

Lemma startswith_drop s p :
  Text.startswith s p = true → s = p +:+ Text.drop (String.length p) s.
Proof.
  intros [v ->]%startswith_spec. by rewrite string_drop_app.
Qed.

Lemma occurs_at_0 p s :
  Text.occurs_at p 0 s ↔ Text.startswith s p = true.
Proof.
  rewrite startswith_spec. split.
  - intros (u & v & -> & Hu). destruct u; [|done]. by exists v.
  - intros [v ->]. by exists "", v.
Qed.

Lemma occurs_at_S p k c s :
  Text.occurs_at p (S k) (String c s) ↔ Text.occurs_at p k s.
Proof.
  split.
  - intros (u & v & Hs & Hu). destruct u as [|d u]; [done|].
    rewrite string_app_cons in Hs. simpl in Hu. injection Hs as -> ->.
    exists u, v. split; [done | lia].
  - intros (u & v & -> & Hu). exists (String c u), v. simpl. by rewrite Hu.
Qed.

Lemma occurs_at_empty p k : p ≠ "" → ¬ Text.occurs_at p k "".
Proof.
  intros Hp (u & v & Hs & _). destruct u; [|done]. by destruct p.
Qed.

Lemma occurs_at_drop p k s :
  Text.occurs_at p k s ↔
  k ≤ String.length s ∧ Text.startswith (Text.drop k s) p = true.
Proof.
  revert s. induction k as [|k IH]; intros s.
  - rewrite string_drop_0, occurs_at_0. split; [split; [lia | done] | by intros [_ ?]].
  - destruct s as [|c s].
    + split.
      * intros (u & v & Hs & Hu). by destruct u.
      * simpl. lia.
    + rewrite occurs_at_S, IH. simpl. split; intros [? ?]; split; [lia | done | lia | done].
Qed.
End string_facts.

(** ** Facts about [str.replace] and [str.count] *)
Section replace_facts.
Variables old new : string.
Hypothesis old_nonempty : old ≠ "".
Implicit Types s t u v : string.

Abbreviation scan := (Text.replace_from old new).
Abbreviation tally := (Text.count_from old).

Lemma replace_nonempty s : Text.replace s old new = scan 0 s.
Proof. unfold Text.replace. by destruct old. Qed.

Lemma count_nonempty s : Text.count s old = tally 0 s.
Proof. unfold Text.count. by destruct old. Qed.

Lemma scan_skip k s : scan k s = scan 0 (Text.drop k s).
Proof.
  revert k. induction s as [|c s IH]; intros k.
  - by rewrite string_drop_empty.
  - destruct k as [|k]; [done|]. simpl. apply IH.
Qed.

Lemma tally_skip k s : tally k s = tally 0 (Text.drop k s).
Proof.
  revert k. induction s as [|c s IH]; intros k.
  - by rewrite string_drop_empty.
  - destruct k as [|k]; [done|]. simpl. apply IH.
Qed.

Lemma drop_pred c s :
  Text.drop (String.length old - 1) s = Text.drop (String.length old) (String c s).
Proof.
  destruct old as [|d o]; [done|]. simpl. by rewrite Nat.sub_0_r.
Qed.

Lemma scan_cons c s :
  scan 0 (String c s)
  = if Text.startswith (String c s) old
    then new +:+ scan (String.length old - 1) s
    else String c (scan 0 s).
Proof. reflexivity. Qed.

Lemma tally_cons c s :
  tally 0 (String c s)
  = if Text.startswith (String c s) old
    then S (tally (String.length old - 1) s)
    else tally 0 s.
Proof. reflexivity. Qed.

(** The two equations of the scan: at a match, and elsewhere. *)
Lemma scan_hit s :
  Text.startswith s old = true →
  scan 0 s = new +:+ scan 0 (Text.drop (String.length old) s).
Proof.
  destruct s as [|c s]; intros Hs.
  - by rewrite startswith_empty in Hs.
  - rewrite scan_cons, Hs, scan_skip. by rewrite (drop_pred c).
Qed.

Lemma scan_miss c s :
  Text.startswith (String c s) old = false →
  scan 0 (String c s) = String c (scan 0 s).
Proof. intros Hs. by rewrite scan_cons, Hs. Qed.

Lemma scan_match v : scan 0 (old +:+ v) = new +:+ scan 0 v.
Proof. by rewrite scan_hit, string_drop_app by apply startswith_app. Qed.

Lemma tally_hit s :
  Text.startswith s old = true →
  tally 0 s = S (tally 0 (Text.drop (String.length old) s)).
Proof.
  destruct s as [|c s]; intros Hs.
  - by rewrite startswith_empty in Hs.
  - rewrite tally_cons, Hs, tally_skip. by rewrite (drop_pred c).
Qed.

Lemma tally_miss c s :
  Text.startswith (String c s) old = false →
  tally 0 (String c s) = tally 0 s.
Proof. intros Hs. by rewrite tally_cons, Hs. Qed.

(** A text without an occurrence is left as it is. *)
Lemma scan_none s : (∀ k, ¬ Text.occurs_at old k s) → scan 0 s = s.
Proof.
  induction s as [|c s IH]; intros Hs; [done|].
  rewrite scan_miss.
  - f_equal. apply IH. intros k Hk. apply (Hs (S k)). by apply occurs_at_S.
  - apply not_true_is_false. intros Hc. apply (Hs 0). by apply occurs_at_0.
Qed.

(** Up to the first occurrence the text is copied. *)
Lemma scan_first u v :
  (∀ k, k < String.length u → ¬ Text.occurs_at old k (u +:+ old +:+ v)) →
  scan 0 (u +:+ old +:+ v) = u +:+ new +:+ scan 0 v.
Proof.
  induction u as [|c u IH]; intros Hu.
  - apply scan_match.
  - rewrite !string_app_cons in *. rewrite scan_miss.
    + f_equal. apply IH. intros k Hk Hocc.
      apply (Hu (S k)); [simpl; lia | by apply occurs_at_S].
    + apply not_true_is_false. intros Hc.
      apply (Hu 0); [simpl; lia | by apply occurs_at_0].
Qed.

Lemma replaced_sound s t : Text.replaced old new s t → t = scan 0 s.
Proof.
  induction 1 as [s Hs | u v t Hu _ IH].
  - by rewrite scan_none.
  - by rewrite scan_first, IH.
Qed.

Lemma replaced_cons c s t :
  Text.startswith (String c s) old = false →
  Text.replaced old new s t →
  Text.replaced old new (String c s) (String c t).
Proof.
  intros Hc Hst. destruct Hst as [s Hs | u v t Hu Hvt].
  - apply Text.replaced_none. intros [|k] Hk.
    + apply occurs_at_0 in Hk. congruence.
    + apply occurs_at_S in Hk. by apply (Hs k).
  - rewrite <-!string_app_cons. apply Text.replaced_first; [|done].
    intros [|k] Hlt Hk; rewrite !string_app_cons in Hk.
    + apply occurs_at_0 in Hk. congruence.
    + apply occurs_at_S in Hk. apply (Hu k); [simpl in Hlt; lia | done].
Qed.

Lemma replaced_complete_bounded n s :
  String.length s ≤ n → Text.replaced old new s (scan 0 s).
Proof.
  revert s. induction n as [|n IH]; intros s Hn.
  - destruct s; [|simpl in Hn; lia].
    apply Text.replaced_none. intros k. by apply occurs_at_empty.
  - destruct s as [|c s].
    { apply Text.replaced_none. intros k. by apply occurs_at_empty. }
    destruct (Text.startswith (String c s) old) eqn:Hc.
    + rewrite scan_hit by done.
      pose proof (startswith_drop _ _ Hc) as Hs.
      set (v := Text.drop (String.length old) (String c s)) in *.
      rewrite Hs.
      apply (Text.replaced_first old new "" v); [simpl; lia|].
      apply IH. apply (f_equal String.length) in Hs.
      rewrite string_length_app in Hs. simpl in Hs, Hn.
      destruct old; [done | simpl in Hs; lia].
    + rewrite scan_miss by done. apply replaced_cons; [done|].
      apply IH. simpl in Hn. lia.
Qed.

(** [str.replace] computes exactly what the specification describes. *)
Lemma replaced_iff s t :
  Text.replaced old new s t ↔ t = Text.replace s old new.
Proof.
  rewrite replace_nonempty. split.
  - apply replaced_sound.
  - intros ->. by apply (replaced_complete_bounded (String.length s)).
Qed.

(** Every match trades [len(old)] characters for [len(new)]. *)
Lemma scan_length k s :
  String.length (scan k s) + tally k s * String.length old
    + Nat.min k (String.length s)
  = String.length s + tally k s * String.length new.
Proof.
  revert k. induction s as [|c s IH]; intros k.
  - simpl. lia.
  - destruct k as [|k].
    + rewrite scan_cons, tally_cons.
      destruct (Text.startswith (String c s) old) eqn:Hc.
      * apply startswith_length in Hc. simpl in Hc.
        specialize (IH (String.length old - 1)).
        rewrite string_length_app. simpl String.length.
        destruct old as [|d o]; [done|]. simpl String.length in *. lia.
      * specialize (IH 0). simpl. lia.
    + specialize (IH k). simpl. lia.
Qed.

Lemma replace_length s :
  String.length (Text.replace s old new) + Text.count s old * String.length old
  = String.length s + Text.count s old * String.length new.
Proof.
  rewrite replace_nonempty, count_nonempty.
  pose proof (scan_length 0 s). simpl in *. lia.
Qed.
End replace_facts.

(** ** Patterns whose first character does not come back

    [response.hash] starts with an [r] and has no other; so two of its
    occurrences never overlap, and since [response.id] starts with the same
    [r], has no other either and differs from the pattern before it ends,
    a replacement never completes a new occurrence. *)
Section first_char_unique.
Variables (h : Ascii.ascii) (old_tail new_tail : string).
Hypothesis old_fresh : Text.has_char old_tail h = false.
Hypothesis new_fresh : Text.has_char new_tail h = false.
Implicit Types s t u v q : string.

Abbreviation old := (String h old_tail).
Abbreviation new := (String h new_tail).
Abbreviation scan := (Text.replace_from old new).
Abbreviation free t := (∀ k, ¬ Text.occurs_at old k t).

Hypothesis new_differs : ∀ t, Text.startswith (new +:+ t) old = false.

Lemma old_not_empty : old ≠ "".
Proof. done. Qed.

(** A piece without [h] that starts before an [h] ends before it. *)
Lemma startswith_before q u x :
  Text.has_char q h = false →
  Text.startswith (u +:+ String h x) q = true →
  Text.startswith u q = true.
Proof.
  revert u. induction q as [|a q IH]; intros u Hq Hu.
  - apply startswith_nil.
  - simpl in Hq. apply orb_false_iff in Hq as [Ha Hq].
    apply bool_decide_eq_false in Ha.
    destruct u as [|c u].
    + rewrite string_app_nil_l, startswith_cons in Hu.
      apply andb_true_iff in Hu as [Hu _].
      apply bool_decide_eq_true in Hu. congruence.
    + rewrite string_app_cons, startswith_cons in Hu. rewrite startswith_cons.
      apply andb_true_iff in Hu as [Hc Hu]. rewrite Hc. simpl. eauto.
Qed.

(** No occurrence straddles the end of a non-empty [u] followed by [old]. *)
Lemma startswith_straddle c u v :
  Text.startswith (String c u +:+ old +:+ v) old = true →
  Text.startswith (String c u) old = true.
Proof.
  rewrite !string_app_cons, !startswith_cons. intros [Hc Hu]%andb_true_iff.
  rewrite Hc. simpl. by apply (startswith_before _ _ (old_tail +:+ v)).
Qed.

(** The scan through an occurrence splits there, whatever surrounds it. *)
Lemma scan_through_bounded n u v :
  String.length u ≤ n →
  scan 0 (u +:+ old +:+ v) = scan 0 u +:+ new +:+ scan 0 v.
Proof.
  revert u. induction n as [|n IH]; intros u Hn.
  - destruct u; [|simpl in Hn; lia]. by apply (scan_match old new).
  - destruct u as [|c u]; [by apply (scan_match old new)|].
    destruct (Text.startswith (String c u) old) eqn:Hc.
    + pose proof (startswith_drop _ _ Hc) as Hu.
      set (u' := Text.drop (String.length old) (String c u)) in *.
      assert (String.length u' ≤ n) as Hn'.
      { apply (f_equal String.length) in Hu. rewrite string_length_app in Hu.
        simpl in Hu, Hn. lia. }
      rewrite Hu, !string_app_assoc, !scan_match, IH by done.
      by rewrite string_app_assoc.
    + rewrite (scan_miss _ _ c u) by done.
      rewrite (string_app_cons c u), (string_app_cons c (scan 0 u)), scan_miss.
      * f_equal. apply IH. simpl in Hn. lia.
      * apply not_true_is_false. intros Hs.
        rewrite <-(string_app_cons c u) in Hs. apply startswith_straddle in Hs.
        congruence.
Qed.

Lemma scan_through u v :
  scan 0 (u +:+ old +:+ v) = scan 0 u +:+ new +:+ scan 0 v.
Proof. by apply (scan_through_bounded (String.length u)). Qed.

(** What the result starts with, short of an [h], the text started with. *)
Lemma startswith_scan q s :
  Text.has_char q h = false →
  Text.startswith (scan 0 s) q = Text.startswith s q.
Proof.
  revert s. induction q as [|a q IH]; intros s Hq.
  - by rewrite !startswith_nil.
  - simpl in Hq. apply orb_false_iff in Hq as [Ha Hq].
    destruct s as [|c s]; [done|].
    destruct (Text.startswith (String c s) old) eqn:Hc.
    + rewrite scan_hit by done. rewrite string_app_cons, !startswith_cons.
      rewrite startswith_cons in Hc. apply andb_true_iff in Hc as [Hc _].
      apply bool_decide_eq_true in Hc as <-.
      apply bool_decide_eq_false in Ha.
      by rewrite !bool_decide_eq_false_2 by congruence.
    + rewrite scan_miss by done. rewrite !startswith_cons. by rewrite IH.
Qed.

Lemma free_cons c t :
  Text.startswith (String c t) old = false → free t → free (String c t).
Proof.
  intros Hc Ht [|k] Hk.
  - apply occurs_at_0 in Hk. congruence.
  - apply occurs_at_S in Hk. by apply (Ht k).
Qed.

Lemma free_app q t : Text.has_char q h = false → free t → free (q +:+ t).
Proof.
  intros Hq Ht. induction q as [|a q IH]; [done|].
  simpl in Hq. apply orb_false_iff in Hq as [Ha Hq].
  rewrite string_app_cons. apply free_cons; [|by apply IH].
  rewrite startswith_cons. by rewrite Ha.
Qed.

Lemma free_new t : free t → free (new +:+ t).
Proof.
  intros Ht. rewrite string_app_cons. apply free_cons.
  - rewrite <-string_app_cons. apply new_differs.
  - by apply free_app.
Qed.

(** The result of the scan has no occurrence left. *)
Lemma scan_free_bounded n s : String.length s ≤ n → free (scan 0 s).
Proof.
  revert s. induction n as [|n IH]; intros s Hn.
  - destruct s; [|simpl in Hn; lia]. intros k. by apply occurs_at_empty.
  - destruct s as [|c s]; [intros k; by apply occurs_at_empty|].
    destruct (Text.startswith (String c s) old) eqn:Hc.
    + rewrite scan_hit by done. apply free_new, IH.
      pose proof (startswith_drop _ _ Hc) as Hs.
      apply (f_equal String.length) in Hs. rewrite string_length_app in Hs.
      simpl in Hs, Hn |- *. lia.
    + rewrite scan_miss by done. apply free_cons.
      * rewrite startswith_cons, startswith_scan by done.
        by rewrite <-startswith_cons.
      * apply IH. simpl in Hn. lia.
Qed.

Lemma scan_free s : free (scan 0 s).
Proof. by apply (scan_free_bounded (String.length s)). Qed.

Lemma scan_idempotent s : scan 0 (scan 0 s) = scan 0 s.
Proof. apply scan_none, scan_free. Qed.
End first_char_unique.

(** ** One turn of the loop *)
Section patch_service_facts.
Implicit Types (w : world) (p q : string) (n : node).

(** An absent file is asked for and nothing else happens. *)
Lemma patch_service_absent p w :
  files w !! p = None →
  patch_service p w = (Return (), log (Exists p) w).
Proof.
  intros Hp. unfold patch_service, bind, path_exists. simpl.
  rewrite Hp. by rewrite bool_decide_eq_false_2 by by intros [? ?].
Qed.

(** A file that opens in both modes is read, rewritten and reported. *)
Lemma patch_service_file p w t :
  files w !! p = Some (File t true true) →
  patch_service p w
  = (Return (),
     World (<[p := File (patch t) true true]> (files w))
           (stdout w ++ [updated p])
           (accesses w ++ [Exists p; Open p ModeR; Read p;
                           Open p ModeW; Write p (patch t)])).
Proof.
  intros Hp.
  unfold patch_service, bind, path_exists, read_text, write_text, print.
  simpl. rewrite Hp. rewrite bool_decide_eq_true_2 by eauto.
  simpl. rewrite Hp. simpl. rewrite Hp. unfold updated, log, store. simpl.
  by rewrite <-!(assoc_L (++)).
Qed.

(** Any other entry makes [open] raise: nothing is written or printed. *)
Lemma patch_service_raise p w n e :
  files w !! p = Some n →
  failure p n = Some e →
  ∃ l, patch_service p w = (Raise e, World (files w) (stdout w) (accesses w ++ l))
       ∧ ∀ a, a ∈ l → path_of a = p.
Proof.
  intros Hp He.
  unfold patch_service, bind, path_exists, read_text, write_text, print.
  simpl. rewrite Hp. rewrite bool_decide_eq_true_2 by eauto.
  simpl. rewrite Hp.
  destruct n as [t [] []|]; simplify_eq/=; rewrite ?Hp; unfold log; simpl;
    (eexists; split; [by rewrite <-?(assoc_L (++)) |]);
    intros a Ha; repeat (apply elem_of_cons in Ha as [->|Ha]; [done|]);
    by apply elem_of_nil in Ha.
Qed.

Lemma usable_cases fs p :
  usable fs p = true →
  fs !! p = None ∨ ∃ t, fs !! p = Some (File t true true).
Proof.
  unfold usable. destruct (fs !! p) as [[t [] []|]|]; simpl; intros ?;
    first [done | by left | right; by exists t].
Qed.

Lemma unusable_failure fs p :
  usable fs p = false → ∃ n e, fs !! p = Some n ∧ failure p n = Some e.
Proof.
  unfold usable. destruct (fs !! p) as [n|]; [|done].
  intros Hn. exists n. destruct n as [t [] []|]; simpl in *;
    first [done | eexists; split; reflexivity].
Qed.
End patch_service_facts.

(** ** The loop *)
Section for_each_facts.
Implicit Types (w : world) (p q : string) (ps : list string).
Implicit Types (fs : gmap string node).

Lemma for_each_app {A} (xs ys : list A) body w :
  for_each (xs ++ ys) body w
  = (for_each xs body ;; for_each ys body) w.
Proof.
  revert w. induction xs as [|x xs IH]; intros w; [done|].
  simpl. unfold bind.
  destruct (body x w) as [[[]|e] w1]; [|done]. apply IH.
Qed.

Lemma present_agree fs1 fs2 ps :
  (∀ p, p ∈ ps → is_Some (fs1 !! p) ↔ is_Some (fs2 !! p)) →
  present fs1 ps = present fs2 ps.
Proof.
  unfold present. induction ps as [|p ps IH]; intros Hps; [done|].
  assert (is_Some (fs1 !! p) ↔ is_Some (fs2 !! p)) as Hp
    by (apply Hps; by left).
  rewrite !filter_cons.
  rewrite IH by (intros q Hq; apply Hps; by right).
  destruct (decide (is_Some (fs1 !! p))), (decide (is_Some (fs2 !! p)));
    tauto || done.
Qed.

Lemma world_eta w : World (files w) (stdout w) (accesses w) = w.
Proof. by destruct w. Qed.

(** The loop over entries that can all be patched: it returns, every
    present file has been rewritten with the patched text, one line was
    printed for each, and nothing else was touched. *)
Lemma for_each_usable ps :
  NoDup ps →
  ∀ w, (∀ p, p ∈ ps → usable (files w) p = true) →
  ∃ fs' l,
    for_each ps patch_service w
    = (Return (),
       World fs' (stdout w ++ (updated <$> present (files w) ps))
             (accesses w ++ l))
    ∧ (∀ q, q ∈ ps → fs' !! q = patch_node <$> files w !! q)
    ∧ (∀ q, q ∉ ps → fs' !! q = files w !! q)
    ∧ (∀ a, a ∈ l → path_of a ∈ ps)
    ∧ (∀ p t, p ∈ ps → content (files w) p = Some t → Write p (patch t) ∈ l)
    ∧ (∀ a, a ∈ l → files w !! path_of a = None → a = Exists (path_of a)).
Proof.
  induction 1 as [|p ps Hp _ IH]; intros w Hw.
  { exists (files w), []. rewrite !app_nil_r, world_eta.
    split_and!;
      [ done
      | intros q Hq; by apply elem_of_nil in Hq
      | done
      | intros a Ha; by apply elem_of_nil in Ha
      | intros q t Hq; by apply elem_of_nil in Hq
      | intros a Ha; by apply elem_of_nil in Ha ]. }
  assert (∀ q, q ∈ ps → q ≠ p) as Hne by (intros q Hq ->; done).
  simpl. unfold bind.
  destruct (usable_cases (files w) p) as [Hnone | [t Hfile]];
    [apply Hw; by left | |].
  - rewrite patch_service_absent by done.
    destruct (IH (log (Exists p) w))
      as (fs' & l & -> & Hin & Hout & Hl & Hwr & Habs);
      [intros q Hq; apply Hw; by right|].
    exists fs', (Exists p :: l). simpl.
    unfold present. rewrite filter_cons_False by (rewrite Hnone; by intros [? ?]).
    rewrite <-(assoc_L (++)). simpl. split_and!; [done | ..].
    + intros q [-> | Hq]%elem_of_cons; [|by apply Hin].
      by rewrite Hout, Hnone.
    + intros q [? ?]%not_elem_of_cons. by apply Hout.
    + intros a [-> | Ha]%elem_of_cons; [by left | right; by apply Hl].
    + intros q t [-> | Hq]%elem_of_cons Ht.
      * unfold content in Ht. by rewrite Hnone in Ht.
      * right. by apply Hwr.
    + intros a [-> | Ha]%elem_of_cons Hnone'; [done | by apply Habs].
  - rewrite (patch_service_file p w t) by done.
    set (w1 := World _ _ _).
    destruct (IH w1) as (fs' & l & -> & Hin & Hout & Hl & Hwr & Habs).
    { intros q Hq. unfold usable. simpl.
      rewrite lookup_insert_ne by (symmetry; by apply Hne).
      apply Hw. by right. }
    exists fs', ([Exists p; Open p ModeR; Read p; Open p ModeW;
                  Write p (patch t)] ++ l). simpl.
    rewrite (present_agree (<[p:=File (patch t) true true]> (files w)) (files w) ps).
    2:{ intros q Hq. by rewrite lookup_insert_ne by (symmetry; by apply Hne). }
    unfold present at 2. rewrite filter_cons_True by (rewrite Hfile; eauto).
    rewrite fmap_cons, <-!(assoc_L (++)). simpl.
    split_and!; [done | ..].
    + intros q [-> | Hq]%elem_of_cons.
      * rewrite Hout by done. simpl. by rewrite lookup_insert_eq, Hfile.
      * rewrite Hin by done. simpl.
        by rewrite lookup_insert_ne by (symmetry; by apply Hne).
    + intros q [? ?]%not_elem_of_cons. rewrite Hout by done. simpl.
      by rewrite lookup_insert_ne.
    + intros a Ha. rewrite !elem_of_cons in Ha.
      destruct Ha as [->|[->|[->|[->|[->|Ha]]]]]; first [by left | right; by apply Hl].
    + intros q t' [-> | Hq]%elem_of_cons Ht'.
      * unfold content in Ht'. rewrite Hfile in Ht'. injection Ht' as <-.
        do 4 right. by left.
      * do 5 right. apply Hwr; [done|]. unfold content in *. simpl.
        by rewrite lookup_insert_ne by (symmetry; by apply Hne).
    + intros a Ha Hnone. rewrite !elem_of_cons in Ha.
      destruct Ha as [->|[->|[->|[->|[->|Ha]]]]];
        [simpl in Hnone; congruence.. |].
      apply Habs; [done|]. simpl.
      rewrite lookup_insert_ne; [done|].
      intros Heq. rewrite <-Heq in Hnone. congruence.
Qed.

(** One turn, whatever the entry is: only [p] can change, no entry
    appears or disappears, and only [p] is asked for. *)
Lemma patch_service_frame p w :
  ∃ r fs' out l,
    patch_service p w = (r, World fs' (stdout w ++ out) (accesses w ++ l))
    ∧ (∀ q, q ≠ p → fs' !! q = files w !! q)
    ∧ (∀ q, is_Some (fs' !! q) ↔ is_Some (files w !! q))
    ∧ (∀ a, a ∈ l → path_of a = p).
Proof.
  destruct (usable (files w) p) eqn:Hu.
  - destruct (usable_cases _ _ Hu) as [Hnone | [t Hfile]].
    + exists (Return ()), (files w), [], [Exists p].
      rewrite patch_service_absent, app_nil_r by done.
      split_and!; [done.. |]. by intros a ->%list_elem_of_singleton.
    + eexists (Return ()), _, [updated p], _.
      rewrite (patch_service_file p w t) by done.
      split_and!; [done | ..].
      * intros q Hq. by rewrite lookup_insert_ne.
      * intros q. destruct (decide (p = q)) as [<-|].
        -- rewrite lookup_insert_eq, Hfile. split; eauto.
        -- by rewrite lookup_insert_ne.
      * intros a Ha.
        repeat (apply elem_of_cons in Ha as [->|Ha]; [done|]).
        by apply elem_of_nil in Ha.
  - destruct (unusable_failure _ _ Hu) as (n & e & Hn & He).
    destruct (patch_service_raise p w n e Hn He) as (l & -> & Hl).
    exists (Raise e), (files w), [], l. rewrite app_nil_r.
    split_and!; done.
Qed.

(** The loop, whatever the entries are: paths outside the list keep
    their entry, no entry appears or disappears, and only listed paths
    are asked for. *)
Lemma for_each_frame ps w :
  ∃ r fs' out l,
    for_each ps patch_service w = (r, World fs' (stdout w ++ out) (accesses w ++ l))
    ∧ (∀ q, q ∉ ps → fs' !! q = files w !! q)
    ∧ (∀ q, is_Some (fs' !! q) ↔ is_Some (files w !! q))
    ∧ (∀ a, a ∈ l → path_of a ∈ ps).
Proof.
  revert w. induction ps as [|p ps IH]; intros w.
  { exists (Return ()), (files w), [], []. rewrite !app_nil_r, world_eta.
    split_and!; [done.. |]. intros a Ha. by apply elem_of_nil in Ha. }
  simpl. unfold bind.
  destruct (patch_service_frame p w) as (r & fs1 & out1 & l1 & -> & Hq1 & Hsome1 & Hl1).
  destruct r as [[]|e].
  - destruct (IH (World fs1 (stdout w ++ out1) (accesses w ++ l1)))
      as (r & fs2 & out2 & l2 & -> & Hq2 & Hsome2 & Hl2).
    simpl in *. exists r, fs2, (out1 ++ out2), (l1 ++ l2).
    rewrite !(assoc_L (++)). split_and!; [done | ..].
    + intros q [? ?]%not_elem_of_cons. rewrite Hq2 by done. by apply Hq1.
    + intros q. by rewrite Hsome2, Hsome1.
    + intros a [Ha | Ha]%elem_of_app; apply elem_of_cons.
      * left. by apply Hl1.
      * right. by apply Hl2.
  - exists (Raise e), fs1, out1, l1. split_and!; [done | ..].
    + intros q [? ?]%not_elem_of_cons. by apply Hq1.
    + done.
    + intros a Ha. apply elem_of_cons. left. by apply Hl1.
Qed.

(** The loop up to the first entry that cannot be patched: the entries
    before it are patched, the exception leaves the loop, and the paths
    behind it are not even asked for. *)
Lemma for_each_abort before p after w n e :
  NoDup (before ++ p :: after) →
  (∀ q, q ∈ before → usable (files w) q = true) →
  files w !! p = Some n →
  failure p n = Some e →
  ∃ fs' l,
    for_each (before ++ p :: after) patch_service w
    = (Raise e,
       World fs' (stdout w ++ (updated <$> present (files w) before))
             (accesses w ++ l))
    ∧ (∀ q, q ∈ before → fs' !! q = patch_node <$> files w !! q)
    ∧ (∀ q, q ∉ before → fs' !! q = files w !! q)
    ∧ (∀ a, a ∈ l → path_of a ∈ before ++ [p]).
Proof.
  intros (Hdup & Hdisj & _)%NoDup_app Hw Hn He.
  assert (p ∉ before) as Hp by (intros Hp; apply (Hdisj p Hp); by left).
  rewrite for_each_app. unfold bind at 1.
  destruct (for_each_usable before Hdup w Hw)
    as (fs' & l & -> & Hin & Hout & Hl & _ & _).
  simpl. unfold bind.
  destruct (patch_service_raise p (World fs' (stdout w ++ (updated <$> present (files w) before))
                                         (accesses w ++ l)) n e)
    as (l' & -> & Hl'); [simpl; by rewrite Hout | done |].
  simpl. exists fs', (l ++ l'). rewrite (assoc_L (++)).
  split_and!; [done.. |].
  intros a [Ha | Ha]%elem_of_app; apply elem_of_app.
  - left. by apply Hl.
  - right. apply list_elem_of_singleton. by apply Hl'.
Qed.

(** Either every entry can be patched or there is a first one that
    cannot. *)
Lemma first_unusable fs ps :
  (∀ p, p ∈ ps → usable fs p = true)
  ∨ ∃ before p after,
      ps = before ++ p :: after
      ∧ (∀ q, q ∈ before → usable fs q = true)
      ∧ usable fs p = false.
Proof.
  induction ps as [|p ps IH].
  { left. intros p Hp. by apply elem_of_nil in Hp. }
  destruct (usable fs p) eqn:Hp.
  - destruct IH as [Hall | (before & q & after & -> & Hbefore & Hq)].
    + left. intros q [-> | Hq]%elem_of_cons; [done | by apply Hall].
    + right. exists (p :: before), q, after. split_and!; [done | | done].
      intros q' [-> | Hq']%elem_of_cons; [done | by apply Hbefore].
  - right. exists [], p, ps. split_and!; [done | | done].
    intros q Hq. by apply elem_of_nil in Hq.
Qed.
End for_each_facts.

(** ** Line 16 *)
Section patch_facts.
Implicit Types s t u v : string.

Lemma old_text_fresh : Text.has_char "esponse.hash" "r"%char = false.
Proof. reflexivity. Qed.

Lemma new_text_fresh : Text.has_char "esponse.id" "r"%char = false.
Proof. reflexivity. Qed.

Lemma new_text_differs t :
  Text.startswith (new_text +:+ t) old_text = false.
Proof. reflexivity. Qed.

Lemma patch_scan s : patch s = Text.replace_from old_text new_text 0 s.
Proof. reflexivity. Qed.

Lemma count_scan s : Text.count s old_text = Text.count_from old_text 0 s.
Proof. reflexivity. Qed.

Lemma patch_through u v :
  patch (u +:+ old_text +:+ v) = patch u +:+ new_text +:+ patch v.
Proof. rewrite !patch_scan. apply scan_through, old_text_fresh. Qed.

Lemma patch_free s k : ¬ Text.occurs_at old_text k (patch s).
Proof.
  rewrite patch_scan.
  apply scan_free; [apply old_text_fresh | apply new_text_fresh |].
  apply new_text_differs.
Qed.

Lemma patch_replaced s t :
  Text.replaced old_text new_text s t ↔ t = patch s.
Proof. by apply replaced_iff. Qed.

Lemma patch_length s :
  String.length (patch s) + 2 * Text.count s old_text = String.length s.
Proof.
  pose proof (replace_length old_text new_text ltac:(done) s) as H.
  fold (patch s) in H. simpl String.length in H. lia.
Qed.

Lemma patch_no_match s : Text.count s old_text = 0 → patch s = s.
Proof.
  rewrite patch_scan, count_scan.
  induction s as [|c s IH]; [done|].
  rewrite scan_cons, tally_cons.
  destruct (Text.startswith _ _); [done|]. intros Hs. f_equal. by apply IH.
Qed.

Lemma patch_node_idempotent n : patch_node (patch_node n) = patch_node n.
Proof.
  destruct n as [t r w|]; [|done]. simpl. f_equal.
  rewrite !patch_scan.
  apply scan_idempotent;
    [apply old_text_fresh | apply new_text_fresh | apply new_text_differs].
Qed.

Lemma updated_inj p q : updated p = updated q → p = q.
Proof. unfold updated. apply (inj _). Qed.
End patch_facts.

(** ** The whole run *)
Section run_facts.
Implicit Types (fs : gmap string node) (p q : string).

Lemma NoDup_services : NoDup services.
Proof. by apply (bool_decide_unpack _). Qed.

Lemma ready_usable fs p : ready fs = true → p ∈ services → usable fs p = true.
Proof.
  unfold ready. rewrite forallb_forall. intros Hfs Hp.
  by apply Hfs, list_elem_of_In.
Qed.

(** A run in which no [open] raises. *)
Lemma run_usable fs :
  (∀ p, p ∈ services → usable fs p = true) →
  ∃ fs' l,
    run fs
    = (Return (),
       World fs' ((updated <$> present fs services) ++ ["All services updated!"]) l)
    ∧ (∀ q, q ∈ services → fs' !! q = patch_node <$> fs !! q)
    ∧ (∀ q, q ∉ services → fs' !! q = fs !! q)
    ∧ (∀ a, a ∈ l → path_of a ∈ services)
    ∧ (∀ p t, p ∈ services → content fs p = Some t → Write p (patch t) ∈ l)
    ∧ (∀ a, a ∈ l → fs !! path_of a = None → a = Exists (path_of a)).
Proof.
  intros Hfs. unfold run, main, bind.
  destruct (for_each_usable services NoDup_services (start fs) Hfs)
    as (fs' & l & -> & H).
  exists fs', l. split; [done | apply H].
Qed.

Lemma stdout_lines fs :
  ready fs = true →
  stdout (run fs).2
  = (updated <$> present fs services) ++ ["All services updated!"].
Proof.
  intros Hfs.
  by destruct (run_usable fs (λ p, ready_usable fs p Hfs)) as (fs' & l & -> & _).
Qed.

(** A run in which [open] raises on [p], the first such path. *)
Lemma run_abort fs before p after n e :
  services = before ++ p :: after →
  (∀ q, q ∈ before → usable fs q = true) →
  fs !! p = Some n →
  failure p n = Some e →
  ∃ fs' l,
    run fs = (Raise e, World fs' (updated <$> present fs before) l)
    ∧ (∀ q, q ∈ before → fs' !! q = patch_node <$> fs !! q)
    ∧ (∀ q, q ∉ before → fs' !! q = fs !! q)
    ∧ (∀ a, a ∈ l → path_of a ∈ before ++ [p]).
Proof.
  intros Hs Hbefore Hn He.
  assert (NoDup (before ++ p :: after)) as Hdup
    by (rewrite <-Hs; apply NoDup_services).
  unfold run, main, bind. rewrite Hs.
  destruct (for_each_abort before p after (start fs) n e Hdup Hbefore Hn He)
    as (fs' & l & -> & H).
  exists fs', l. split; [done | apply H].
Qed.

(** Any run. *)
Lemma run_frame fs :
  ∃ r fs' out l,
    run fs = (r, World fs' out l)
    ∧ (∀ q, q ∉ services → fs' !! q = fs !! q)
    ∧ (∀ q, is_Some (fs' !! q) ↔ is_Some (fs !! q))
    ∧ (∀ a, a ∈ l → path_of a ∈ services).
Proof.
  unfold run, main, bind.
  destruct (for_each_frame services (start fs))
    as (r & fs' & out & l & -> & H).
  destruct r as [[]|e]; simpl; eauto 10.
Qed.
End run_facts.

(** ** The properties of the specification *)

(** C1. In a run where every listed path is absent or opens for reading
    and writing (the other runs are the subject of C7), the run returns and
    every listed file that exists ends up with its original text in which
    each occurrence of [response.hash], found scanning left to right and
    never overlapping, has become [response.id], the text in between kept
    as it was: the final text is the only one the relation [Text.replaced]
    of the specification admits. *)
Theorem present_files_are_patched fs :
  ready fs = true →
  ∃ w', run fs = (Return (), w')
    ∧ ∀ p text, p ∈ services → content fs p = Some text →
        content (files w') p = Some (patch text)
        ∧ ∀ t, Text.replaced old_text new_text text t ↔ t = patch text.
Proof.
  intros Hfs.
  destruct (run_usable fs (λ p, ready_usable fs p Hfs))
    as (fs' & l & -> & Hin & _).
  eexists. split; [done|]. intros p text Hp Htext. split.
  - unfold content in *. simpl. rewrite (Hin p Hp).
    destruct (fs !! p) as [[t r w|]|]; simplify_eq/=; done.
  - apply patch_replaced.
Qed.

Lemma present_files_are_patched_witness :
  ready three_files = true
  ∧ ∃ w', run three_files = (Return (), w')
      ∧ ∀ p text, p ∈ services → content three_files p = Some text →
          content (files w') p = Some (patch text)
          ∧ ∀ t, Text.replaced old_text new_text text t ↔ t = patch text.
Proof.
  split; [reflexivity | apply (present_files_are_patched three_files); reflexivity].
Defined.

(** C2. Replacing twice gives what replacing once gives, for every text. *)
Theorem patch_idempotent s : patch (patch s) = patch s.
Proof.
  rewrite !patch_scan.
  apply scan_idempotent;
    [apply old_text_fresh | apply new_text_fresh | apply new_text_differs].
Qed.

(** A second run of the script leaves every file as the first run left it. *)
Lemma rerun_keeps_files fs w1 w2 :
  ready fs = true →
  run fs = (Return (), w1) →
  run (files w1) = (Return (), w2) →
  files w2 = files w1.
Proof.
  intros Hfs Hrun1 Hrun2.
  destruct (run_usable fs (λ p, ready_usable fs p Hfs))
    as (fs1 & l1 & Heq1 & Hin1 & Hout1 & _).
  rewrite Heq1 in Hrun1. injection Hrun1 as <-. simpl in Hrun2.
  destruct (run_usable fs1) as (fs2 & l2 & Heq2 & Hin2 & Hout2 & _).
  { intros p Hp. pose proof (ready_usable fs p Hfs Hp) as Hu.
    unfold usable in *. rewrite (Hin1 p Hp).
    by destruct (fs !! p) as [[t r w|]|]. }
  rewrite Heq2 in Hrun2. injection Hrun2 as <-. simpl.
  apply map_eq. intros q. destruct (decide (q ∈ services)) as [Hq | Hq].
  - rewrite (Hin2 q Hq), (Hin1 q Hq).
    destruct (fs !! q) as [n|]; [|done]. simpl. by rewrite patch_node_idempotent.
  - by rewrite (Hout2 q Hq).
Qed.

(** C4. The replacement looks at no word boundary: an occurrence is
    replaced whatever text [u] is in front of it and whatever text [v]
    follows it; so [response.hashes] becomes [response.ides] wherever it
    stands, and the literal tests of the specification come out as stated. *)
Theorem patch_ignores_word_boundaries :
  patch "x.response.hash.y" = "x.response.id.y"
  ∧ patch "response.hashes" = "response.ides"
  ∧ patch "xresponse.hashy" = "xresponse.idy"
  ∧ (∀ u v, patch (u +:+ "response.hash" +:+ v)
            = patch u +:+ "response.id" +:+ patch v)
  ∧ (∀ u v, patch (u +:+ "response.hashes" +:+ v)
            = patch u +:+ "response.ides" +:+ patch v).
Proof.
  split_and!; [reflexivity.. | apply patch_through |].
  intros u v.
  change (u +:+ "response.hashes" +:+ v)
    with (u +:+ old_text +:+ String "e" (String "s" v)).
  rewrite patch_through. do 2 f_equal.
Qed.

(** C10. A file the run reports as updated has lost two characters for
    every non-overlapping occurrence of [response.hash] in its original
    text. *)
Theorem patched_length_of_processed_file fs p text :
  p ∈ services →
  content fs p = Some text →
  updated p ∈ stdout (run fs).2 →
  ∃ final,
    content (files (run fs).2) p = Some final
    ∧ Z.of_nat (String.length final)
      = (Z.of_nat (String.length text) - 2 * Z.of_nat (Text.count text old_text))%Z.
Proof.
  intros Hp Htext Hout. exists (patch text). split.
  2:{ pose proof (patch_length text). lia. }
  assert (∀ fs', fs' !! p = patch_node <$> fs !! p →
                 content fs' p = Some (patch text)) as Hpatched.
  { intros fs' Hfs'. unfold content in *. rewrite Hfs'.
    destruct (fs !! p) as [[t r w|]|]; simplify_eq/=; done. }
  destruct (first_unusable fs services)
    as [Hall | (before & p' & after & Hs & Hbefore & Hp')].
  - destruct (run_usable fs Hall) as (fs' & l & Heq & Hin & _).
    rewrite Heq. simpl. by apply Hpatched, Hin.
  - destruct (unusable_failure _ _ Hp') as (n & e & Hn & He).
    destruct (run_abort fs before p' after n e Hs Hbefore Hn He)
      as (fs' & l & Heq & Hin & _).
    rewrite Heq in Hout |- *. simpl in *.
    apply list_elem_of_fmap in Hout as (q & ->%updated_inj & Hq).
    apply list_elem_of_filter in Hq as [_ Hq]. by apply Hpatched, Hin.
Qed.

Lemma patched_length_of_processed_file_witness :
  "Blendv3/Services/PoolService.swift" ∈ services
  ∧ content second_locked "Blendv3/Services/PoolService.swift"
    = Some "a=response.hash;"
  ∧ updated "Blendv3/Services/PoolService.swift" ∈ stdout (run second_locked).2
  ∧ ∃ final,
      content (files (run second_locked).2) "Blendv3/Services/PoolService.swift"
      = Some final
      ∧ Z.of_nat (String.length final)
        = (Z.of_nat (String.length "a=response.hash;")
           - 2 * Z.of_nat (Text.count "a=response.hash;" old_text))%Z.
Proof.
  assert ("Blendv3/Services/PoolService.swift" ∈ services) as Hp
    by (unfold services; left).
  assert (updated "Blendv3/Services/PoolService.swift"
          ∈ stdout (run second_locked).2) as Hout
    by (vm_compute; left).
  split_and!; [exact Hp | reflexivity | exact Hout |].
  exact (patched_length_of_processed_file second_locked _ _ Hp eq_refl Hout).
Defined.

(** C3. A listed path that is absent is skipped silently: in a run where
    the other listed paths are absent or open for reading and writing, no
    exception is raised, the path is still absent afterwards, no line is
    printed for it, it was asked for with [os.path.exists] and in no other
    way, the other files that exist are patched, and the last line printed
    is the completion line. *)
Theorem absent_service_is_skipped fs p :
  p ∈ services →
  fs !! p = None →
  ready fs = true →
  ∃ w', run fs = (Return (), w')
    ∧ files w' !! p = None
    ∧ ¬ updated p ∈ stdout w'
    ∧ (∀ a, a ∈ accesses w' → path_of a = p → a = Exists p)
    ∧ (∀ q text, q ∈ services → content fs q = Some text →
         content (files w') q = Some (patch text))
    ∧ last (stdout w') = Some "All services updated!".
Proof.
  intros Hp Hnone Hfs.
  destruct (run_usable fs (λ p, ready_usable fs p Hfs))
    as (fs' & l & -> & Hin & _ & _ & _ & Habs).
  eexists. split; [done|]. simpl. split_and!.
  - by rewrite (Hin p Hp), Hnone.
  - intros [Hline | Hline]%elem_of_app.
    + apply list_elem_of_fmap in Hline as (q & ->%updated_inj & Hq).
      apply list_elem_of_filter in Hq as [[n Hn] _]. congruence.
    + apply list_elem_of_singleton in Hline. discriminate Hline.
  - intros a Ha <-. by apply Habs.
  - intros q text Hq Htext. unfold content in *. rewrite (Hin q Hq).
    destruct (fs !! q) as [[t r w|]|]; simplify_eq/=; done.
  - apply last_snoc.
Qed.

Lemma absent_service_is_skipped_witness :
  "Blendv3/Services/BackstopContractService.swift" ∈ services
  ∧ second_absent !! "Blendv3/Services/BackstopContractService.swift" = None
  ∧ ready second_absent = true
  ∧ ∃ w', run second_absent = (Return (), w')
      ∧ files w' !! "Blendv3/Services/BackstopContractService.swift" = None
      ∧ ¬ updated "Blendv3/Services/BackstopContractService.swift" ∈ stdout w'
      ∧ (∀ a, a ∈ accesses w' →
           path_of a = "Blendv3/Services/BackstopContractService.swift" →
           a = Exists "Blendv3/Services/BackstopContractService.swift")
      ∧ (∀ q text, q ∈ services → content second_absent q = Some text →
           content (files w') q = Some (patch text))
      ∧ last (stdout w') = Some "All services updated!".
Proof.
  assert ("Blendv3/Services/BackstopContractService.swift" ∈ services) as Hp
    by (unfold services; right; left).
  split_and!; [exact Hp | reflexivity | reflexivity |].
  exact (absent_service_is_skipped second_absent _ Hp eq_refl eq_refl).
Defined.

(** C5. In a run where no [open] raises, a listed file that exists and has
    no occurrence of [response.hash] is nevertheless written, with the text
    it had, and reported as updated. *)
Theorem unchanged_file_is_rewritten fs p text :
  ready fs = true →
  p ∈ services →
  content fs p = Some text →
  Text.count text old_text = 0 →
  ∃ w', run fs = (Return (), w')
    ∧ content (files w') p = Some text
    ∧ Write p text ∈ accesses w'
    ∧ updated p ∈ stdout w'.
Proof.
  intros Hfs Hp Htext Hcount.
  destruct (run_usable fs (λ p, ready_usable fs p Hfs))
    as (fs' & l & -> & Hin & _ & _ & Hwr & _).
  eexists. split; [done|]. simpl. split_and!.
  - unfold content in *. rewrite (Hin p Hp).
    destruct (fs !! p) as [[t r w|]|]; simplify_eq/=.
    by rewrite patch_no_match.
  - rewrite <-(patch_no_match text Hcount) at 1. by apply Hwr.
  - apply elem_of_app. left. apply list_elem_of_fmap. exists p. split; [done|].
    apply list_elem_of_filter. split; [|done].
    unfold content in Htext. destruct (fs !! p); [eauto | done].
Qed.

Lemma unchanged_file_is_rewritten_witness :
  ready three_files = true
  ∧ "Blendv3/Services/BackstopContractService.swift" ∈ services
  ∧ content three_files "Blendv3/Services/BackstopContractService.swift" = Some "b"
  ∧ Text.count "b" old_text = 0
  ∧ ∃ w', run three_files = (Return (), w')
      ∧ content (files w') "Blendv3/Services/BackstopContractService.swift"
        = Some "b"
      ∧ Write "Blendv3/Services/BackstopContractService.swift" "b" ∈ accesses w'
      ∧ updated "Blendv3/Services/BackstopContractService.swift" ∈ stdout w'.
Proof.
  assert ("Blendv3/Services/BackstopContractService.swift" ∈ services) as Hp
    by (unfold services; right; left).
  split_and!; [reflexivity | exact Hp | reflexivity | reflexivity |].
  exact (unchanged_file_is_rewritten three_files _ "b" eq_refl Hp eq_refl eq_refl).
Defined.

(** C6. In a run where no [open] raises, standard output is one line
    [Updated <path>] for every listed file that exists (these are the
    files patched, see C1), in the order of the list, and then the one line
    [All services updated!]. *)
Theorem stdout_of_run fs :
  ready fs = true →
  ∃ w', run fs = (Return (), w')
    ∧ stdout w'
      = (updated <$> present fs services) ++ ["All services updated!"].
Proof.
  intros Hfs.
  destruct (run_usable fs (λ p, ready_usable fs p Hfs)) as (fs' & l & -> & _).
  by eexists.
Qed.

Lemma stdout_of_run_witness :
  ready second_absent = true
  ∧ ∃ w', run second_absent = (Return (), w')
      ∧ stdout w'
        = (updated <$> present second_absent services)
          ++ ["All services updated!"].
Proof.
  split; [reflexivity | exact (stdout_of_run second_absent eq_refl)].
Defined.

(** C7. When a listed path exists and [open] fails on it, for reading or
    for writing, and it is the first such path, the exception leaves the
    script: the run ends with it, the listed files before that path have
    their patched text, every other entry is as it was, the lines printed
    are those of the files before it, without the completion line, and no
    path behind it in the list was asked for. *)
Theorem failing_open_aborts_run fs before p after n e :
  services = before ++ p :: after →
  (∀ q, q ∈ before → usable fs q = true) →
  fs !! p = Some n →
  failure p n = Some e →
  ∃ w', run fs = (Raise e, w')
    ∧ (∀ q text, q ∈ before → content fs q = Some text →
         content (files w') q = Some (patch text))
    ∧ (∀ q, q ∉ before → files w' !! q = fs !! q)
    ∧ stdout w' = updated <$> present fs before
    ∧ (∀ a, a ∈ accesses w' → path_of a ∉ after).
Proof.
  intros Hs Hbefore Hn He.
  destruct (run_abort fs before p after n e Hs Hbefore Hn He)
    as (fs' & l & -> & Hin & Hout & Hl).
  eexists. split; [done|]. simpl. split_and!; [| done | done |].
  - intros q text Hq Htext. unfold content in *. rewrite (Hin q Hq).
    destruct (fs !! q) as [[t r w|]|]; simplify_eq/=; done.
  - intros a Ha Hafter. pose proof NoDup_services as Hdup.
    rewrite Hs, (cons_middle p before after), (assoc_L (++)) in Hdup.
    apply NoDup_app in Hdup as (_ & Hdisj & _).
    apply (Hdisj (path_of a)); [by apply Hl | done].
Qed.

Lemma failing_open_aborts_run_witness :
  services
  = ["Blendv3/Services/PoolService.swift"]
    ++ "Blendv3/Services/BackstopContractService.swift"
    :: ["Blendv3/Services/BlendOracleService.swift"]
  ∧ (∀ q, q ∈ ["Blendv3/Services/PoolService.swift"] →
       usable second_locked q = true)
  ∧ second_locked !! "Blendv3/Services/BackstopContractService.swift"
    = Some (File "response.hash" false true)
  ∧ failure "Blendv3/Services/BackstopContractService.swift"
      (File "response.hash" false true)
    = Some (PermissionError "Blendv3/Services/BackstopContractService.swift")
  ∧ ∃ w', run second_locked
          = (Raise (PermissionError "Blendv3/Services/BackstopContractService.swift"), w')
      ∧ (∀ q text, q ∈ ["Blendv3/Services/PoolService.swift"] →
           content second_locked q = Some text →
           content (files w') q = Some (patch text))
      ∧ (∀ q, q ∉ ["Blendv3/Services/PoolService.swift"] →
           files w' !! q = second_locked !! q)
      ∧ stdout w' = updated <$> present second_locked ["Blendv3/Services/PoolService.swift"]
      ∧ (∀ a, a ∈ accesses w' →
           path_of a ∉ ["Blendv3/Services/BlendOracleService.swift"]).
Proof.
  assert (∀ q, q ∈ ["Blendv3/Services/PoolService.swift"] →
               usable second_locked q = true) as Hbefore.
  { intros q Hq. apply list_elem_of_singleton in Hq. rewrite Hq. reflexivity. }
  split_and!; [reflexivity | exact Hbefore | reflexivity | reflexivity |].
  exact (failing_open_aborts_run second_locked
           ["Blendv3/Services/PoolService.swift"]
           "Blendv3/Services/BackstopContractService.swift"
           ["Blendv3/Services/BlendOracleService.swift"] _ _
           eq_refl Hbefore eq_refl eq_refl).
Defined.

(** C8. A path that is not one of the three listed paths is never asked
    for, opened, read or written, and its entry, or its absence, is after
    the run what it was before; this holds of every run, also of one that an
    exception ends. *)
Theorem unlisted_paths_untouched fs q :
  q ∉ services →
  files (run fs).2 !! q = fs !! q
  ∧ ∀ a, a ∈ accesses (run fs).2 → path_of a ≠ q.
Proof.
  intros Hq.
  destruct (run_frame fs) as (r & fs' & out & l & -> & Hout & _ & Hl).
  simpl. split; [by apply Hout|].
  intros a Ha <-. by apply Hq, Hl.
Qed.

Lemma unlisted_paths_untouched_witness :
  ("README.md" ∉ services)
  ∧ files (run second_absent).2 !! "README.md" = second_absent !! "README.md"
  ∧ ∀ a, a ∈ accesses (run second_absent).2 → path_of a ≠ "README.md".
Proof.
  assert ("README.md" ∉ services) as Hq.
  { unfold services. intros Hq.
    repeat (apply elem_of_cons in Hq as [Hq|Hq]; [discriminate Hq|]).
    by apply elem_of_nil in Hq. }
  split; [exact Hq | exact (unlisted_paths_untouched second_absent _ Hq)].
Defined.

(** A run that returns has met no [open] that raises. *)
Lemma returned_ready fs : (run fs).1 = Return () → ready fs = true.
Proof.
  intros Hrun.
  destruct (first_unusable fs services)
    as [Hall | (before & p & after & Hs & Hbefore & Hp)].
  - unfold ready. apply forallb_forall. intros p Hp.
    by apply Hall, list_elem_of_In.
  - destruct (unusable_failure _ _ Hp) as (n & e & Hn & He).
    destruct (run_abort fs before p after n e Hs Hbefore Hn He)
      as (fs' & l & Heq & _).
    rewrite Heq in Hrun. discriminate Hrun.
Qed.

(** C9, as the code has it. Between two runs that both return, neither
    ended by an exception, and in which the same listed paths exist, the
    lines printed are the same, whatever the files contain. *)
Theorem returned_runs_print_by_existence fs1 fs2 :
  (run fs1).1 = Return () →
  (run fs2).1 = Return () →
  (∀ p, p ∈ services → is_Some (fs1 !! p) ↔ is_Some (fs2 !! p)) →
  stdout (run fs1).2 = stdout (run fs2).2.
Proof.
  intros Hrun1%returned_ready Hrun2%returned_ready Hsame.
  rewrite (stdout_lines fs1 Hrun1), (stdout_lines fs2 Hrun2).
  by rewrite (present_agree fs1 fs2 services Hsame).
Qed.

Lemma returned_runs_print_by_existence_witness :
  (run three_files).1 = Return ()
  ∧ (run other_texts).1 = Return ()
  ∧ (∀ p, p ∈ services →
       is_Some (three_files !! p) ↔ is_Some (other_texts !! p))
  ∧ stdout (run three_files).2 = stdout (run other_texts).2.
Proof.
  assert (∀ p, p ∈ services →
            is_Some (three_files !! p) ↔ is_Some (other_texts !! p))
    as Hsame.
  { unfold services. intros p Hp.
    repeat (apply elem_of_cons in Hp as [Hp|Hp];
            [rewrite Hp; split; intros _; vm_compute; eauto|]).
    by apply elem_of_nil in Hp. }
  assert ((run three_files).1 = Return ()) as Hrun1 by (vm_compute; reflexivity).
  assert ((run other_texts).1 = Return ()) as Hrun2 by (vm_compute; reflexivity).
  split_and!; [exact Hrun1 | exact Hrun2 | exact Hsame |].
  exact (returned_runs_print_by_existence three_files other_texts
           Hrun1 Hrun2 Hsame).
Defined.

(** C9, as the specification words it, fails: the same three listed paths
    exist in [three_files] and in [second_locked], but the second file
    of [second_locked] cannot be read, the exception of its [open] ends the
    run, and only the first line is printed. *)
Lemma same_existence_other_stdout :
  (∀ p, p ∈ services →
     is_Some (three_files !! p) ↔ is_Some (second_locked !! p))
  ∧ stdout (run three_files).2 ≠ stdout (run second_locked).2.
Proof.
  split.
  - unfold services. intros p Hp.
    repeat (apply elem_of_cons in Hp as [Hp|Hp];
            [rewrite Hp; split; intros _; vm_compute; eauto|]).
    by apply elem_of_nil in Hp.
  - vm_compute. discriminate.
Qed.

(** ** Further facts about runs *)

(** The scenario of the specification, run. *)
Example run_three_files :
  (run three_files).1 = Return ()
  ∧ content (files (run three_files).2) <$> services
    = [Some "a=response.id;"; Some "b"; Some "response.id response.id"]
  ∧ stdout (run three_files).2
    = ["Updated Blendv3/Services/PoolService.swift";
       "Updated Blendv3/Services/BackstopContractService.swift";
       "Updated Blendv3/Services/BlendOracleService.swift";
       "All services updated!"].
Proof. split_and!; vm_compute; reflexivity. Qed.

(** A run stopped by the second file. *)
Example run_second_locked :
  (run second_locked).1
  = Raise (PermissionError "Blendv3/Services/BackstopContractService.swift")
  ∧ content (files (run second_locked).2) "Blendv3/Services/PoolService.swift"
    = Some "a=response.id;"
  ∧ content (files (run second_locked).2) "Blendv3/Services/BlendOracleService.swift"
    = Some "response.hash response.hash"
  ∧ stdout (run second_locked).2 = ["Updated Blendv3/Services/PoolService.swift"].
Proof. split_and!; vm_compute; reflexivity. Qed.

(** ** What the run asks of the file system *)
Section trace_facts.
Implicit Types (w : world) (p q : string) (ps : list string).
Implicit Types (fs : gmap string node).

(** One turn appends the accesses of its entry, returns exactly when the
    entry can be patched, and leaves the other paths alone. *)
Lemma patch_service_trace p w :
  ∃ r fs' out,
    patch_service p w
    = (r, World fs' out (accesses w ++ asked p (files w !! p)))
    ∧ (r = Return () ↔ usable (files w) p = true)
    ∧ (∀ q, q ≠ p → fs' !! q = files w !! q).
Proof.
  unfold usable. destruct (files w !! p) as [[t [] []|]|] eqn:Hp.
  - rewrite (patch_service_file p w t Hp). eexists _, _, _.
    split_and!; [done | done |]. intros q Hq. by rewrite lookup_insert_ne.
  - exists (Raise (PermissionError p)), (files w), (stdout w).
    split_and!; [| split; intros; done | done].
    unfold patch_service, bind, path_exists, read_text, write_text. simpl.
    rewrite Hp, bool_decide_eq_true_2 by eauto. simpl. rewrite Hp. simpl.
    rewrite Hp. unfold log. simpl. by rewrite <-!(assoc_L (++)).
  - exists (Raise (PermissionError p)), (files w), (stdout w).
    split_and!; [| split; intros; done | done].
    unfold patch_service, bind, path_exists, read_text. simpl.
    rewrite Hp, bool_decide_eq_true_2 by eauto. simpl. rewrite Hp.
    unfold log. simpl. by rewrite <-!(assoc_L (++)).
  - exists (Raise (PermissionError p)), (files w), (stdout w).
    split_and!; [| split; intros; done | done].
    unfold patch_service, bind, path_exists, read_text. simpl.
    rewrite Hp, bool_decide_eq_true_2 by eauto. simpl. rewrite Hp.
    unfold log. simpl. by rewrite <-!(assoc_L (++)).
  - exists (Raise (IsADirectoryError p)), (files w), (stdout w).
    split_and!; [| split; intros; done | done].
    unfold patch_service, bind, path_exists, read_text. simpl.
    rewrite Hp, bool_decide_eq_true_2 by eauto. simpl. rewrite Hp.
    unfold log. simpl. by rewrite <-!(assoc_L (++)).
  - rewrite (patch_service_absent p w Hp). by exists (Return ()), (files w), (stdout w).
Qed.

Lemma trace_agree fs1 fs2 ps :
  (∀ p, p ∈ ps → fs1 !! p = fs2 !! p) → trace fs1 ps = trace fs2 ps.
Proof.
  induction ps as [|p ps IH]; intros Hps; [done|]. simpl.
  unfold usable. rewrite (Hps p) by by left.
  rewrite IH; [done|]. intros q Hq. apply Hps. by right.
Qed.

Lemma for_each_trace ps :
  NoDup ps →
  ∀ w, accesses (for_each ps patch_service w).2 = accesses w ++ trace (files w) ps.
Proof.
  induction 1 as [|p ps Hp _ IH]; intros w; [by rewrite app_nil_r|].
  simpl. unfold bind.
  destruct (patch_service_trace p w) as (r & fs' & out & -> & Hr & Hfs').
  destruct r as [[]|e].
  - rewrite IH. simpl. rewrite (proj1 Hr eq_refl), <-(assoc_L (++)).
    do 2 f_equal. apply trace_agree. intros q Hq. apply Hfs'. by intros ->.
  - simpl. destruct (usable (files w) p) eqn:Hu; [|by rewrite app_nil_r].
    discriminate (proj2 Hr eq_refl).
Qed.

Lemma elem_of_trace fs ps a :
  a ∈ trace fs ps → ∃ p, p ∈ ps ∧ a ∈ asked p (fs !! p).
Proof.
  induction ps as [|p ps IH]; simpl; [by intros ?%elem_of_nil|].
  intros [Ha | Ha]%elem_of_app.
  - exists p. split; [by left | done].
  - destruct (usable fs p); [|by apply elem_of_nil in Ha].
    destruct (IH Ha) as (q & Hq & Hq'). exists q. split; [by right | done].
Qed.
End trace_facts.

(** ** Further properties of the script *)

(** X1. The accesses of a run, aborted or not, are those [trace] computes
    from the file system the run starts in: for each listed path in the
    order of the list an existence test, and for a path that exists the
    opening for reading, the read, the opening for writing and the write,
    until the first [open] that raises. *)
Theorem accesses_of_run fs : accesses (run fs).2 = trace fs services.
Proof.
  unfold run, main, bind.
  pose proof (for_each_trace services NoDup_services (start fs)) as Htrace.
  destruct (for_each services patch_service (start fs)) as [[[]|e] w']; done.
Qed.

(** X2. Whatever a run writes, it writes to a listed path that held text
    when the run started, and what it writes is that text patched. *)
Theorem writes_are_patched_originals fs p t :
  Write p t ∈ accesses (run fs).2 →
  p ∈ services ∧ ∃ text, content fs p = Some text ∧ t = patch text.
Proof.
  assert (accesses (run fs).2 = trace fs services) as ->.
  { unfold run, main, bind.
    pose proof (for_each_trace services NoDup_services (start fs)) as Htrace.
    destruct (for_each services patch_service (start fs)) as [[[]|e] w']; done. }
  intros (q & Hq & Ha)%elem_of_trace.
  unfold asked, content in *.
  destruct (fs !! q) as [[text [] []|]|] eqn:Hfs;
    repeat (apply elem_of_cons in Ha as [Ha|Ha]; [simplify_eq|]);
    try by apply elem_of_nil in Ha.
  rewrite Hfs. eauto.
Qed.

Lemma writes_are_patched_originals_witness :
  Write "Blendv3/Services/PoolService.swift" "a=response.id;"
  ∈ accesses (run second_locked).2
  ∧ "Blendv3/Services/PoolService.swift" ∈ services
  ∧ ∃ text, content second_locked "Blendv3/Services/PoolService.swift" = Some text
            ∧ "a=response.id;" = patch text.
Proof.
  assert (Write "Blendv3/Services/PoolService.swift" "a=response.id;"
          ∈ accesses (run second_locked).2) as Hw
    by (vm_compute; do 4 right; left).
  split; [exact Hw | exact (writes_are_patched_originals second_locked _ _ Hw)].
Defined.

Lemma usable_ready fs :
  (∀ p, p ∈ services → usable fs p = true) → ready fs = true.
Proof.
  intros Hfs. unfold ready. apply forallb_forall. intros p Hp.
  by apply Hfs, list_elem_of_In.
Qed.

Lemma erase_patch_node n : erase (patch_node n) = erase n.
Proof. by destruct n. Qed.

(** The two ways a run can go. *)
Lemma run_cases fs :
  (∃ fs' l,
     run fs = (Return (),
               World fs' ((updated <$> present fs services)
                          ++ ["All services updated!"]) l)
     ∧ (∀ q, q ∈ services → usable fs q = true)
     ∧ (∀ q, q ∈ services → fs' !! q = patch_node <$> fs !! q)
     ∧ (∀ q, q ∉ services → fs' !! q = fs !! q))
  ∨ (∃ before p after n e fs' l,
       run fs = (Raise e, World fs' (updated <$> present fs before) l)
       ∧ services = before ++ p :: after
       ∧ fs !! p = Some n ∧ failure p n = Some e
       ∧ (∀ q, q ∈ before → fs' !! q = patch_node <$> fs !! q)
       ∧ (∀ q, q ∉ before → fs' !! q = fs !! q)).
Proof.
  destruct (first_unusable fs services)
    as [Hall | (before & p & after & Hs & Hbefore & Hp)].
  - left. destruct (run_usable fs Hall) as (fs' & l & Heq & Hin & Hout & _).
    exists fs', l. by split_and!.
  - right. destruct (unusable_failure _ _ Hp) as (n & e & Hn & He).
    destruct (run_abort fs before p after n e Hs Hbefore Hn He)
      as (fs' & l & Heq & Hin & Hout & _).
    exists before, p, after, n, e, fs', l. by split_and!.
Qed.

(** X3. A run, aborted or not, changes nothing but the text of files: no
    entry appears or disappears, a directory stays a directory, and the
    access rights of every file stay as they were. In particular the
    [open(..., 'w')] of the script never creates a file. *)
Theorem run_changes_text_only fs q :
  erase <$> files (run fs).2 !! q = erase <$> fs !! q.
Proof.
  destruct (run_cases fs)
    as [(fs' & l & -> & _ & Hin & Hout)
       | (before & p & after & n & e & fs' & l & -> & _ & _ & _ & Hin & Hout)];
    simpl.
  - destruct (decide (q ∈ services)) as [Hq | Hq].
    + rewrite (Hin q Hq). destruct (fs !! q); [|done]. simpl.
      by rewrite erase_patch_node.
    + by rewrite (Hout q Hq).
  - destruct (decide (q ∈ before)) as [Hq | Hq].
    + rewrite (Hin q Hq). destruct (fs !! q); [|done]. simpl.
      by rewrite erase_patch_node.
    + by rewrite (Hout q Hq).
Qed.

(** X4. No run ends in a [FileNotFoundError]: [open] would raise it on
    an absent path, but the existence test of line 11 lets the script open
    only paths that exist. *)
Theorem run_never_raises_file_not_found fs q :
  (run fs).1 ≠ Raise (FileNotFoundError q).
Proof.
  destruct (run_cases fs)
    as [(fs' & l & -> & _)
       | (before & p & after & n & e & fs' & l & -> & _ & _ & He & _)];
    simpl; [done|].
  intros [= ->]. by destruct n as [t [] []|].
Qed.

(** X5. After a run in which no [open] raises, no listed file contains
    [response.hash] at any offset. *)
Theorem no_occurrence_left fs p text k :
  ready fs = true →
  p ∈ services →
  content (files (run fs).2) p = Some text →
  ¬ Text.occurs_at old_text k text.
Proof.
  intros Hfs Hp Htext.
  destruct (run_usable fs (λ p, ready_usable fs p Hfs))
    as (fs' & l & Heq & Hin & _).
  rewrite Heq in Htext. unfold content in Htext. simpl in Htext.
  rewrite (Hin p Hp) in Htext.
  destruct (fs !! p) as [[t r w|]|]; simplify_eq/=. apply patch_free.
Qed.

Lemma no_occurrence_left_witness :
  ready three_files = true
  ∧ "Blendv3/Services/BlendOracleService.swift" ∈ services
  ∧ content (files (run three_files).2) "Blendv3/Services/BlendOracleService.swift"
    = Some "response.id response.id"
  ∧ ¬ Text.occurs_at old_text 12 "response.id response.id".
Proof.
  assert ("Blendv3/Services/BlendOracleService.swift" ∈ services) as Hp
    by (unfold services; do 2 right; left).
  assert (content (files (run three_files).2)
            "Blendv3/Services/BlendOracleService.swift"
          = Some "response.id response.id") as Htext
    by (vm_compute; reflexivity).
  split_and!; [reflexivity | exact Hp | exact Htext |].
  exact (no_occurrence_left three_files _ _ 12 eq_refl Hp Htext).
Defined.

(** X6. After a run in which no [open] raises, a second run raises none
    either, leaves every file as the first run left it and prints the same
    lines again. *)
Theorem second_run_repeats fs :
  ready fs = true →
  ready (files (run fs).2) = true
  ∧ files (run (files (run fs).2)).2 = files (run fs).2
  ∧ stdout (run (files (run fs).2)).2 = stdout (run fs).2.
Proof.
  intros Hfs.
  destruct (run_usable fs (λ p, ready_usable fs p Hfs))
    as (fs1 & l1 & Heq1 & Hin1 & Hout1 & _).
  rewrite Heq1. simpl.
  assert (∀ p, p ∈ services → usable fs1 p = true) as Hfs1.
  { intros p Hp. pose proof (ready_usable fs p Hfs Hp) as Hu.
    unfold usable in *. rewrite (Hin1 p Hp).
    by destruct (fs !! p) as [[t r w|]|]. }
  destruct (run_usable fs1 Hfs1) as (fs2 & l2 & Heq2 & Hin2 & Hout2 & _).
  rewrite Heq2. simpl. split_and!.
  - by apply usable_ready.
  - apply map_eq. intros q. destruct (decide (q ∈ services)) as [Hq | Hq].
    + rewrite (Hin2 q Hq), (Hin1 q Hq).
      destruct (fs !! q) as [n|]; [|done]. simpl.
      by rewrite patch_node_idempotent.
    + by rewrite (Hout2 q Hq).
  - f_equal. f_equal. apply present_agree. intros q Hq.
    rewrite (Hin1 q Hq). by rewrite fmap_is_Some.
Qed.

Lemma second_run_repeats_witness :
  ready three_files = true
  ∧ ready (files (run three_files).2) = true
  ∧ files (run (files (run three_files).2)).2 = files (run three_files).2
  ∧ stdout (run (files (run three_files).2)).2 = stdout (run three_files).2.
Proof.
  split; [reflexivity | exact (second_run_repeats three_files eq_refl)].
Defined.

(** X7. Line 16 leaves a text as it is exactly when the text has no
    occurrence of [response.hash]: when [str.count] finds none, which is
    when the pattern stands at no offset. *)
Theorem patch_fixes_exactly_texts_without_occurrence s :
  (patch s = s ↔ Text.count s old_text = 0)
  ∧ (patch s = s ↔ ∀ k, ¬ Text.occurs_at old_text k s).
Proof.
  split; split.
  - intros Hs. pose proof (patch_length s) as Hlen. rewrite Hs in Hlen. lia.
  - apply patch_no_match.
  - intros <- k. apply patch_free.
  - intros Hs. rewrite patch_scan. by apply scan_none.
Qed.

(** X8. The completion line is printed exactly in the runs that return:
    a run that an exception ends does not print it. *)
Theorem completion_line_iff_returned fs :
  "All services updated!" ∈ stdout (run fs).2 ↔ (run fs).1 = Return ().
Proof.
  destruct (run_cases fs)
    as [(fs' & l & -> & _)
       | (before & p & after & n & e & fs' & l & -> & _)]; simpl.
  - split; [done|]. intros _. apply elem_of_app. right. by left.
  - split; [|done].
    intros (q & Hq & _)%list_elem_of_fmap. discriminate Hq.
Qed.
